(** * fix-pdf-escape.py: the one-shot patcher of Reports.js

    The script reads one file as UTF-8 text, runs

      content = re.sub(old_pattern, new_line, content)

    writes the text back to the same path and prints two status lines.
    This development embeds the script (the text it handles, the fragment
    of Python's [re] module it exercises, the files it touches through
    text mode, with its translation of line breaks, and its standard
    output) and proves the properties its specification states. *)

From Stdlib Require Import List NArith Arith Lia Bool String Ascii.
From Equations Require Import Equations.
From stdpp Require Import gmap strings.
Import ListNotations.

Local Open Scope nat_scope.

(** ** Python text *)

(** A Python [str] is a sequence of Unicode code points. *)
Definition char : Type := N.
Definition str : Type := list char.

(** The text of an ASCII-only source literal. *)
Definition lit (s : string) : str :=
  List.map N_of_ascii (list_ascii_of_string s).

Definition char_eqb (a b : char) : bool := N.eqb a b.

Definition newline : char := 10%N.
Definition cr : char := 13%N.
Definition backslash : char := 92%N.

(** [str.startswith]: [p] is a prefix of [s]. *)
Fixpoint startswith (s p : str) {struct p} : bool :=
  match p, s with
  | [], _ => true
  | _ :: _, [] => false
  | a :: p', c :: s' => char_eqb a c && startswith s' p'
  end.

(** ** The fragment of the [re] module the script uses *)

Module Re.

(** Compiled pattern items (sre opcodes LITERAL and ANY). *)
Inductive atom : Type :=
| Literal (c : char)
| Any.

Definition is_literal (a : atom) : bool :=
  match a with Literal _ => true | Any => false end.

Definition in_range (lo hi c : char) : bool :=
  (N.leb lo c && N.leb c hi)%bool.

(** ASCII letters and digits: after a backslash they introduce a
    category, a control character, a numeric escape or a group
    reference ([\d], [\n], [\x41], [\1]), or are rejected as a bad
    escape. *)
Definition ascii_alnum (c : char) : bool :=
  (in_range 48 57 c || in_range 65 90 c || in_range 97 122 c)%N.

(** sre_parse.SPECIAL_CHARS without the dot and the backslash, which
    [parse] treats on their own: the quantifiers, the class opener, the
    group brackets, alternation and the anchors. *)
Definition special_chars : str := lit "[{()*+?^$|".

Definition is_special (c : char) : bool :=
  existsb (char_eqb c) special_chars.

(** sre_parse on the fragment: a backslash followed by a character that
    is not an ASCII letter or digit is that character, a dot is ANY, any
    other non-special character is itself.  [None] stands for every
    pattern outside the fragment (one that uses a special character or
    an alphanumeric escape) and for the patterns [re] rejects (a
    trailing backslash). *)
Fixpoint parse (pattern : str) : option (list atom) :=
  match pattern with
  | [] => Some []
  | c :: rest =>
      if char_eqb c backslash then
        match rest with
        | [] => None
        | e :: rest' =>
            if ascii_alnum e then None
            else option_map (cons (Literal e)) (parse rest')
        end
      else if char_eqb c 46%N then option_map (cons Any) (parse rest)
      else if is_special c then None
      else option_map (cons (Literal c)) (parse rest)
  end.

(** One item against one character; without DOTALL the dot does not
    match a newline. *)
Definition atom_matches (a : atom) (c : char) : bool :=
  match a with
  | Literal x => char_eqb x c
  | Any => negb (char_eqb c newline)
  end.

(** [pattern.match] at the start of [s]: the number of characters
    matched. *)
Fixpoint match_len (p : list atom) (s : str) {struct p} : option nat :=
  match p, s with
  | [], _ => Some 0
  | _ :: _, [] => None
  | a :: p', c :: s' =>
      if atom_matches a c then option_map S (match_len p' s') else None
  end.

(** The replacement template: a template with a backslash (group
    references, escapes) is outside the fragment, any other one stands
    for itself. *)
Definition expand_template (repl : str) : option str :=
  if existsb (char_eqb backslash) repl then None else Some repl.

(** The loop of [pattern.sub] with [count=0]: search from the current
    position, copy the text before the match, emit the replacement,
    continue after the match; an empty match is replaced and the scan
    moves on by one character. *)
Equations? sub_loop (p : list atom) (repl : str) (s : str) : str
  by wf (length s) lt :=
  sub_loop p repl [] :=
    match match_len p [] with Some _ => repl | None => [] end;
  sub_loop p repl (c :: s') with match_len p (c :: s') := {
    | Some 0 => repl ++ c :: sub_loop p repl s'
    | Some (S n) => repl ++ sub_loop p repl (skipn n s')
    | None => c :: sub_loop p repl s' }.
Proof.
  all: try (simpl; lia).
  rewrite length_skipn. simpl. lia.
Qed.

(** [re.sub(pattern, repl, string)]; [None] when the pattern or the
    template is outside the fragment. *)
Definition sub (pattern repl s : str) : option str :=
  match parse pattern, expand_template repl with
  | Some p, Some r => Some (sub_loop p r s)
  | _, _ => None
  end.

End Re.

(** ** The script *)

(** The exceptions the script can let escape. *)
Inductive py_error : Type :=
| FileNotFoundError
| PermissionError
| UnicodeDecodeError
| ReError.

(** The operating system decides [os.linesep]. *)
Inductive platform : Type :=
| Posix
| Windows.

Definition os_linesep (p : platform) : str :=
  match p with
  | Posix => [newline]
  | Windows => [cr; newline]
  end.

(** Reading in text mode with [newline=None] (universal newlines): a
    carriage return followed by a line feed, and a carriage return on
    its own, come out as one line feed. *)
Fixpoint universal_newlines (s : str) : str :=
  match s with
  | [] => []
  | c :: s' =>
      if char_eqb c cr then
        match s' with
        | d :: s'' =>
            if char_eqb d newline then newline :: universal_newlines s''
            else newline :: universal_newlines s'
        | [] => [newline]
        end
      else c :: universal_newlines s'
  end.

(** Writing in text mode with [newline=None]: every line feed goes out
    as the line separator [sep]. *)
Fixpoint translate_newlines (sep s : str) : str :=
  match s with
  | [] => []
  | c :: s' =>
      if char_eqb c newline then sep ++ translate_newlines sep s'
      else c :: translate_newlines sep s'
  end.

(** A file under a path: its permissions and the characters its bytes
    decode to as UTF-8, line breaks as they stand on disk; [None] when
    the bytes are not valid UTF-8.  Text that was decoded from UTF-8
    always encodes back, so writing it cannot fail on encoding. *)
Record file : Type := mkFile {
  readable : bool;
  writable : bool;
  text : option str
}.

(** What a run can observe and change: the files by path, the text
    sent so far to standard output, the log of the reads and writes
    that were carried out, and the platform it runs on.  The failures
    described are those of opening the target (missing, permission
    denied) and of decoding it; what a run does under other names of the
    same file, or when the device fails during the write or the print,
    is not described. *)
Inductive io_event : Type :=
| EvRead (path : string)
| EvWrite (path : string) (content : str).

Record world : Type := mkWorld {
  files : gmap string file;
  stdout : str;
  io_log : list io_event;
  os : platform
}.

(** Statements run in sequence until one raises. *)
Definition io (A : Type) : Type := world -> (py_error + A) * world.

Definition ret {A} (a : A) : io A := fun w => (inr a, w).
Definition raise {A} (e : py_error) : io A := fun w => (inl e, w).
Definition bind {A B} (m : io A) (k : A -> io B) : io B :=
  fun w =>
    match m w with
    | (inl e, w') => (inl e, w')
    | (inr a, w') => k a w'
    end.

Notation "'let*' x ':=' m 'in' k" := (bind m (fun x => k))
  (at level 10, x name, m at level 100, k at level 200).

(** [with open(path, 'r', encoding='utf-8') as f: f.read()]: the
    content of the file with its line breaks folded into line feeds. *)
Definition read_text (path : string) : io str :=
  fun w =>
    match files w !! path with
    | None => (inl FileNotFoundError, w)
    | Some f =>
        if negb (readable f) then (inl PermissionError, w)
        else match text f with
             | None => (inl UnicodeDecodeError, w)
             | Some raw =>
                 (inr (universal_newlines raw),
                  mkWorld (files w) (stdout w) (io_log w ++ [EvRead path]) (os w))
             end
    end.

(** [with open(path, 'w', encoding='utf-8') as f: f.write(content)]:
    the file is created when it is missing and replaced otherwise, and
    holds [content] with its line feeds written as [os.linesep]. *)
Definition write_text (path : string) (content : str) : io unit :=
  fun w =>
    let stored := translate_newlines (os_linesep (os w)) content in
    match files w !! path with
    | None =>
        (inr tt, mkWorld (<[path := mkFile true true (Some stored)]> (files w))
                         (stdout w) (io_log w ++ [EvWrite path content]) (os w))
    | Some f =>
        if negb (writable f) then (inl PermissionError, w)
        else
          (inr tt, mkWorld (<[path := mkFile (readable f) true (Some stored)]> (files w))
                           (stdout w) (io_log w ++ [EvWrite path content]) (os w))
    end.

(** [print(s)]: [s] and a line feed, sent to standard output. *)
Definition print (s : str) : io unit :=
  fun w =>
    (inr tt, mkWorld (files w) (stdout w ++ s ++ [newline]) (io_log w) (os w)).

(** [re.sub] as a statement: a pattern that does not compile raises. *)
Definition re_sub (pattern repl s : str) : io str :=
  match Re.sub pattern repl s with
  | Some out => ret out
  | None => raise ReError
  end.

(** An f-string: literal text and the values of its replacement
    fields. *)
Inductive fpart : Type :=
| FText (s : str)
| FField (value : str).

Definition fstring (parts : list fpart) : str :=
  List.concat (List.map (fun p => match p with FText s => s | FField v => v end) parts).

Definition target_path : string :=
  "c:\Users\Marcelo\Desktop\e-Traffic-System\client\src\pages\admin\Reports.js".

Definition old_pattern : str :=
  lit "return text\.replace\(/&/g, '&amp;'\)\.replace\(/<\/g, '&lt;'\)\.replace\(/>\/g, '&gt;'\);".

Definition new_line : str := lit "return text;".

(** The whole script, statement by statement. *)
Definition main : io unit :=
  let* content := read_text target_path in
  let* content := re_sub old_pattern new_line content in
  let* _ := write_text target_path content in
  let* _ := print (lit "File updated successfully!") in
  print (fstring [FText (lit "Replacements made")]).

(** ** The vocabulary of the specification *)

(** Pattern and Replacement as the specification spells them. *)
Definition Pattern : str :=
  lit "return text.replace(/&/g, '&amp;').replace(/</g, '&lt;').replace(/>/g, '&gt;');".

Definition Replacement : str := lit "return text;".

(** Plain fixed-string replacement ([str.replace]): every occurrence of
    [old] found in one scan from the left, none overlapping an earlier
    one, becomes [new]. *)
Equations? str_replace (old new s : str) : str by wf (length s) lt :=
  str_replace old new [] := match old with [] => new | _ :: _ => [] end;
  str_replace old new (c :: s') with startswith (c :: s') old := {
    | true with old := {
        | [] => new ++ c :: str_replace old new s'
        | _ :: old' => new ++ str_replace old new (skipn (length old') s') }
    | false => c :: str_replace old new s' }.
Proof.
  all: try (simpl; lia).
  rewrite length_skipn. simpl. lia.
Qed.

(** The number of positions of [s] at which [p] occurs. *)
Fixpoint occurrences (p s : str) : nat :=
  match s with
  | [] => 0
  | _ :: s' => (if startswith s p then 1 else 0) + occurrences p s'
  end.

(** The lines of a text ([s.split('\n')]). *)
Fixpoint split_lines (s : str) : list str :=
  match s with
  | [] => [[]]
  | c :: s' =>
      if char_eqb c newline then [] :: split_lines s'
      else match split_lines s' with
           | l :: ls => (c :: l) :: ls
           | [] => [[c]]
           end
  end.

(** The text with the occurrence of Pattern at offset [k] replaced, and
    the text itself when Pattern does not occur there. *)
Definition replace_at (k : nat) (s : str) : str :=
  if startswith (skipn k s) Pattern
  then firstn k s ++ Replacement ++ skipn (k + length Pattern) s
  else s.

(** Segments put together with [sep] between them ([sep.join(segs)]). *)
Fixpoint join (sep : str) (segs : list str) : str :=
  match segs with
  | [] => []
  | [x] => x
  | x :: rest => x ++ sep ++ join sep rest
  end.


(** [clash a b]: [a] and [b] differ at a position both have. *)
Fixpoint clash (a b : str) : bool :=
  match a, b with
  | x :: a', y :: b' => negb (char_eqb x y) || clash a' b'
  | _, _ => false
  end.

(** The non-empty suffixes of a text, longest first. *)
Fixpoint tails (s : str) : list str :=
  match s with
  | [] => []
  | _ :: s' => s :: tails s'
  end.

(** No proper non-empty suffix of [p] is a prefix of [p]: two
    occurrences of [p] never overlap. *)
Definition border_free (p : str) : bool :=
  forallb (fun q => clash q p) (tails (tl p)).

(** [p] cannot start inside a copy of [r], nor run into one: a
    replacement never completes a new occurrence. *)
Definition seam_free (p r : str) : bool :=
  forallb (clash p) (tails r) && forallb (fun q => clash q r) (tails (tl p)).

Definition no_newline (s : str) : bool :=
  forallb (fun c => negb (char_eqb c newline)) s.

(** [r] in front of the first line of [ls]. *)
Definition prepend (r : str) (ls : list str) : list str :=
  match ls with
  | l :: ls' => (r ++ l) :: ls'
  | [] => [r]
  end.

(** The ASCII digits. *)
Definition is_digit (c : char) : bool := Re.in_range 48%N 57%N c.

(** ** The model at work *)

Example sub_escaped_dot :
  Re.sub (lit "a\.b") (lit "X") (lit "a.b axb a.ba.b") = Some (lit "X axb XX").
Proof. vm_compute. reflexivity. Qed.

Example sub_plain_dot :
  Re.sub (lit "a.b") (lit "X") (lit "a.b axb a.ba.b") = Some (lit "X X XX").
Proof. vm_compute. reflexivity. Qed.

Example sub_empty_pattern :
  Re.sub [] (lit "X") (lit "ab") = Some (lit "XaXbX").
Proof. vm_compute. reflexivity. Qed.

Example sub_outside_fragment :
  Re.sub (lit "a*") (lit "X") (lit "aa") = None.
Proof. vm_compute. reflexivity. Qed.

Example replace_leftmost :
  str_replace (lit "aa") (lit "b") (lit "aaa aaaa") = lit "ba bb".
Proof. vm_compute. reflexivity. Qed.

Example split_lines_ex :
  split_lines (lit "a" ++ [newline] ++ [newline] ++ lit "b" ++ [newline])
  = [lit "a"; []; lit "b"; []].
Proof. vm_compute. reflexivity. Qed.

Example universal_newlines_ex :
  universal_newlines (lit "a" ++ [cr; newline] ++ lit "b" ++ [cr] ++ lit "c"
                      ++ [newline; cr])
  = lit "a" ++ [newline] ++ lit "b" ++ [newline] ++ lit "c" ++ [newline; newline].
Proof. vm_compute. reflexivity. Qed.

Example translate_newlines_ex :
  translate_newlines (os_linesep Windows) (lit "a" ++ [newline] ++ lit "b")
  = lit "a" ++ [cr; newline] ++ lit "b".
Proof. vm_compute. reflexivity. Qed.

Example main_patches_target :
  let w := mkWorld {[ target_path :=
                        mkFile true true (Some (lit "{ " ++ Pattern ++ lit " }")) ]}
                   [] [] Windows in
  files (snd (main w)) !! target_path
  = Some (mkFile true true (Some (lit "{ return text; }"))).
Proof. vm_compute. reflexivity. Qed.

Example main_crlf_target :
  let raw := lit "x" ++ [cr; newline] ++ Pattern ++ [cr; newline] ++ lit "y"
             ++ [cr] ++ lit "z" in
  let w := mkWorld {[ target_path := mkFile true true (Some raw) ]} [] [] Posix in
  files (snd (main w)) !! target_path
  = Some (mkFile true true
            (Some (lit "x" ++ [newline] ++ lit "return text;" ++ [newline]
                   ++ lit "y" ++ [newline] ++ lit "z"))).
Proof. vm_compute. reflexivity. Qed.

Example main_read_only_target :
  let w := mkWorld {[ target_path := mkFile true false (Some Pattern) ]} [] []
                   Posix in
  fst (main w) = inl PermissionError /\ stdout (snd (main w)) = [] /\
  files (snd (main w)) = files w.
Proof. vm_compute. repeat split; reflexivity. Qed.

(** ** Prefixes and occurrences *)

Lemma char_eqb_eq (a b : char) : char_eqb a b = true <-> a = b.
Proof. unfold char_eqb. apply N.eqb_eq. Qed.

Lemma char_eqb_refl (a : char) : char_eqb a a = true.
Proof. apply char_eqb_eq. reflexivity. Qed.

Lemma startswith_app (p t : str) : startswith (p ++ t) p = true.
Proof.
  induction p as [|a p IH]; simpl; [reflexivity|].
  rewrite char_eqb_refl. exact IH.
Qed.

Lemma startswith_split (s p : str) :
  startswith s p = true -> s = p ++ skipn (length p) s.
Proof.
  revert s. induction p as [|a p IH]; intros s H; simpl in *; [reflexivity|].
  destruct s as [|c s]; [discriminate|].
  apply andb_prop in H as [Hc Hs]. apply char_eqb_eq in Hc. subst c.
  simpl. f_equal. apply IH. exact Hs.
Qed.

Lemma startswith_iff (s p : str) :
  startswith s p = true <-> exists t, s = p ++ t.
Proof.
  split.
  - intros H. exists (skipn (length p) s). apply startswith_split. exact H.
  - intros [t ->]. apply startswith_app.
Qed.

(** A prefix of [a] is a prefix of [a ++ b]. *)
Lemma startswith_weaken (a b p : str) :
  startswith a p = true -> startswith (a ++ b) p = true.
Proof.
  intros H. apply startswith_iff in H as [t ->].
  rewrite <- app_assoc. apply startswith_app.
Qed.

(** A prefix of [a ++ x] lies within [a] or runs over its end. *)
Lemma startswith_app_inv (p a x : str) :
  startswith (a ++ x) p = true ->
  startswith a p = true \/
  (length a < length p /\ startswith x (skipn (length a) p) = true).
Proof.
  revert p. induction a as [|c a IH]; intros p H.
  - destruct p as [|b p]; [left; reflexivity|].
    right. split; [simpl; lia | exact H].
  - destruct p as [|b p]; [left; reflexivity|].
    simpl in H. apply andb_prop in H as [Hc Hs].
    destruct (IH p Hs) as [Hl | [Hlen Hr]].
    + left. simpl. rewrite Hc. exact Hl.
    + right. split; [simpl; lia | exact Hr].
Qed.

Lemma clash_startswith (a b x : str) :
  clash a b = true -> startswith (b ++ x) a = false.
Proof.
  revert b. induction a as [|c a IH]; intros b H; [discriminate|].
  destruct b as [|d b]; [discriminate|].
  simpl in *. destruct (char_eqb c d); simpl in *; [|reflexivity].
  apply IH. exact H.
Qed.

Lemma occurrences_app (p a b : str) :
  occurrences p a + occurrences p b <= occurrences p (a ++ b).
Proof.
  induction a as [|c a IH]; simpl; [lia|].
  destruct (startswith (c :: a) p) eqn:E.
  - change (c :: a ++ b) with ((c :: a) ++ b).
    rewrite (startswith_weaken _ b _ E). lia.
  - destruct (startswith (c :: a ++ b) p); lia.
Qed.

Lemma occurrences_hit (p t : str) :
  p <> [] -> 1 + occurrences p t <= occurrences p (p ++ t).
Proof.
  intros Hp. destruct p as [|a p]; [congruence|].
  change (occurrences (a :: p) ((a :: p) ++ t))
    with ((if startswith ((a :: p) ++ t) (a :: p) then 1 else 0)
          + occurrences (a :: p) (p ++ t)).
  rewrite startswith_app.
  pose proof (occurrences_app (a :: p) p t). lia.
Qed.

(** ** The compiled pattern is a fixed string *)

Lemma match_len_literal (p s : str) :
  Re.match_len (List.map Re.Literal p) s =
  if startswith s p then Some (length p) else None.
Proof.
  revert s. induction p as [|a p IH]; intros s; simpl; [reflexivity|].
  destruct s as [|c s]; [reflexivity|].
  destruct (char_eqb a c); simpl; [|reflexivity].
  rewrite IH. destruct (startswith s p); reflexivity.
Qed.

Lemma sub_loop_literal (p r s : str) :
  p <> [] -> Re.sub_loop (List.map Re.Literal p) r s = str_replace p r s.
Proof.
  intros Hp. destruct p as [|a p]; [congruence|]. clear Hp.
  remember (length s) as n eqn:Hn.
  revert s Hn. induction n as [n IH] using lt_wf_ind. intros s Hn.
  destruct s as [|c s].
  - simp sub_loop str_replace. reflexivity.
  - simp sub_loop str_replace.
    rewrite match_len_literal.
    destruct (startswith (c :: s) (a :: p)) eqn:E; simpl.
    + f_equal.
      apply (IH (length (skipn (length p) s))); [|reflexivity].
      rewrite length_skipn. subst n. simpl. lia.
    + f_equal. apply (IH (length s)); [subst n; simpl; lia | reflexivity].
Qed.

(** ** Fixed-string replacement *)

Lemma tails_skipn (l : str) (k : nat) :
  k < length l -> In (skipn k l) (tails l).
Proof.
  revert k. induction l as [|c l IH]; intros k Hk; simpl in Hk; [lia|].
  destruct k as [|k]; simpl; [left; reflexivity|].
  right. apply IH. lia.
Qed.

Lemma tails_step (l : str) (a : char) (q : str) :
  In (a :: q) (tails l) -> q = [] \/ In q (tails l).
Proof.
  induction l as [|c l IH]; simpl; [tauto|].
  intros [H | H].
  - injection H as _ Hq. subst q.
    destruct l as [|d l]; [left; reflexivity|].
    right. right. simpl. left. reflexivity.
  - destruct (IH H) as [Hq | Hq]; [left; exact Hq | right; right; exact Hq].
Qed.

Lemma split_lines_nonempty (t : str) : split_lines t <> [].
Proof.
  destruct t as [|c t]; simpl; [discriminate|].
  destruct (char_eqb c newline); [discriminate|].
  destruct (split_lines t); discriminate.
Qed.

Lemma split_lines_prefix (t l : str) (ls : list str) :
  split_lines t = l :: ls -> exists u, t = l ++ u.
Proof.
  revert l ls. induction t as [|c t IH]; intros l ls H; simpl in H.
  - injection H as <- _. exists []. reflexivity.
  - destruct (char_eqb c newline).
    + injection H as <- _. exists (c :: t). reflexivity.
    + destruct (split_lines t) as [|l0 ls0] eqn:E.
      * exfalso. exact (split_lines_nonempty t E).
      * injection H as <- _. destruct (IH l0 ls0 eq_refl) as [u ->].
        exists u. reflexivity.
Qed.

Lemma split_lines_app (r u : str) :
  no_newline r = true -> split_lines (r ++ u) = prepend r (split_lines u).
Proof.
  induction r as [|c r IH]; intros Hr; simpl in *.
  - destruct (split_lines u) eqn:E; [|reflexivity].
    exfalso. exact (split_lines_nonempty u E).
  - apply andb_prop in Hr as [Hc Hr]. apply negb_true_iff in Hc.
    rewrite Hc, (IH Hr). destruct (split_lines u); reflexivity.
Qed.

Section Replace.

Variables P R : str.
Hypothesis P_nonempty : P <> [].

Lemma replace_nil : str_replace P R [] = [].
Proof. simp str_replace. destruct P; [congruence | reflexivity]. Qed.

Lemma replace_hit (t : str) : str_replace P R (P ++ t) = R ++ str_replace P R t.
Proof.
  destruct P as [|a p] eqn:E; [congruence|].
  change ((a :: p) ++ t) with (a :: (p ++ t)).
  simp str_replace.
  change (a :: (p ++ t)) with ((a :: p) ++ t).
  rewrite startswith_app. simpl.
  rewrite skipn_app, skipn_all, Nat.sub_diag. reflexivity.
Qed.

Lemma replace_miss (c : char) (t : str) :
  startswith (c :: t) P = false ->
  str_replace P R (c :: t) = c :: str_replace P R t.
Proof. intros H. simp str_replace. rewrite H. reflexivity. Qed.

(** Induction along the scan: the empty text, a text that starts with
    an occurrence, a text that starts with a character the scan
    copies. *)
Lemma replace_ind (Q : str -> Prop) :
  Q [] ->
  (forall t, Q t -> Q (P ++ t)) ->
  (forall c t, startswith (c :: t) P = false -> Q t -> Q (c :: t)) ->
  forall s, Q s.
Proof.
  intros Hnil Hhit Hmiss s.
  remember (length s) as n eqn:Hn. revert s Hn.
  induction n as [n IH] using lt_wf_ind. intros s Hn.
  destruct s as [|c t]; [exact Hnil|].
  destruct (startswith (c :: t) P) eqn:E.
  - rewrite (startswith_split _ _ E). apply Hhit.
    apply (IH (length (skipn (length P) (c :: t)))); [|reflexivity].
    rewrite length_skipn. subst n.
    destruct P; [congruence | simpl; lia].
  - apply Hmiss; [exact E|].
    apply (IH (length t)); [subst n; simpl; lia | reflexivity].
Qed.

Lemma replace_absent (s : str) : occurrences P s = 0 -> str_replace P R s = s.
Proof.
  induction s as [|t IH|c t E IH] using replace_ind; intros H.
  - apply replace_nil.
  - pose proof (occurrences_hit P t P_nonempty). lia.
  - rewrite (replace_miss _ _ E). f_equal. apply IH.
    simpl in H. lia.
Qed.

Lemma replace_length_le (s : str) :
  length R <= length P -> length (str_replace P R s) <= length s.
Proof.
  intros HR. induction s as [|t IH|c t E IH] using replace_ind.
  - rewrite replace_nil. lia.
  - rewrite replace_hit, !length_app. lia.
  - rewrite (replace_miss _ _ E). simpl. lia.
Qed.

Lemma replace_length_eq (s : str) :
  length R < length P ->
  length (str_replace P R s) = length s -> str_replace P R s = s.
Proof.
  intros HR. induction s as [|t IH|c t E IH] using replace_ind.
  - intros _. apply replace_nil.
  - rewrite replace_hit, !length_app.
    pose proof (replace_length_le t ltac:(lia)). lia.
  - rewrite (replace_miss _ _ E). simpl. intros H. f_equal. apply IH. lia.
Qed.

(** *** Occurrences do not overlap *)

Hypothesis P_border_free : border_free P = true.

Lemma border_free_skipn (k : nat) (x : str) :
  1 <= k < length P -> startswith (P ++ x) (skipn k P) = false.
Proof.
  intros Hk. apply clash_startswith.
  pose proof P_border_free as Hb. unfold border_free in Hb.
  rewrite forallb_forall in Hb. apply Hb.
  destruct P as [|a p]; [congruence|]. simpl in *.
  destruct k as [|k]; [lia|]. simpl. apply tails_skipn. lia.
Qed.

Lemma replace_around (a b : str) :
  str_replace P R (a ++ P ++ b) = str_replace P R a ++ R ++ str_replace P R b.
Proof.
  induction a as [|t IH|c t E IH] using replace_ind.
  - rewrite replace_nil. simpl. apply replace_hit.
  - rewrite <- app_assoc, !replace_hit, IH, <- app_assoc. reflexivity.
  - rewrite (replace_miss _ _ E). simpl.
    rewrite replace_miss; [rewrite IH; reflexivity|].
    destruct (startswith (c :: t ++ P ++ b) P) eqn:F; [|reflexivity].
    change (c :: t ++ P ++ b) with ((c :: t) ++ P ++ b) in F.
    apply startswith_app_inv in F as [F | [Hlen F]]; [congruence|].
    rewrite border_free_skipn in F; [discriminate|].
    simpl in *. lia.
Qed.

(** *** The output holds no occurrence *)

Hypothesis PR_seam_free : seam_free P R = true.

Lemma seam_prefix (r u : str) :
  forallb (clash P) (tails r) = true ->
  occurrences P u = 0 -> occurrences P (r ++ u) = 0.
Proof.
  induction r as [|c r IH]; intros Hr Hu; [exact Hu|].
  simpl in Hr. apply andb_prop in Hr as [Hc Hr].
  change (occurrences P ((c :: r) ++ u))
    with ((if startswith ((c :: r) ++ u) P then 1 else 0) + occurrences P (r ++ u)).
  rewrite (clash_startswith _ _ _ Hc), (IH Hr Hu). reflexivity.
Qed.

Lemma replace_prefix_back (t q : str) :
  q = [] \/ In q (tails (tl P)) ->
  startswith (str_replace P R t) q = true -> startswith t q = true.
Proof.
  revert q. induction t as [|t IH|c t E IH] using replace_ind; intros q Hq.
  - rewrite replace_nil. auto.
  - rewrite replace_hit. destruct Hq as [-> | Hq]; [reflexivity|].
    intros H. exfalso.
    pose proof PR_seam_free as Hs. unfold seam_free in Hs.
    apply andb_prop in Hs as [_ Hs].
    rewrite forallb_forall in Hs.
    rewrite (clash_startswith _ _ _ (Hs q Hq)) in H. discriminate.
  - rewrite (replace_miss _ _ E).
    destruct q as [|a q]; [reflexivity|].
    destruct Hq as [Hq | Hq]; [discriminate|].
    simpl. intros H. apply andb_prop in H as [Ha H]. rewrite Ha. simpl.
    apply IH; [|exact H].
    destruct (tails_step _ _ _ Hq) as [-> | Hq']; [left; reflexivity | right; exact Hq'].
Qed.

Lemma replace_clean (s : str) : occurrences P (str_replace P R s) = 0.
Proof.
  induction s as [|t IH|c t E IH] using replace_ind.
  - rewrite replace_nil. reflexivity.
  - rewrite replace_hit. apply seam_prefix; [|exact IH].
    pose proof PR_seam_free as Hs. unfold seam_free in Hs.
    apply andb_prop in Hs as [Hs _]. exact Hs.
  - rewrite (replace_miss _ _ E).
    change (occurrences P (c :: str_replace P R t))
      with ((if startswith (c :: str_replace P R t) P then 1 else 0)
            + occurrences P (str_replace P R t)).
    rewrite IH.
    destruct (startswith (c :: str_replace P R t) P) eqn:F; [|reflexivity].
    exfalso.
    assert (startswith (str_replace P R t) (tl P) = true /\
            (startswith t (tl P) = true -> startswith (c :: t) P = true)) as [G1 G2].
    { clear - F P_nonempty. destruct P as [|a p]; [congruence|]. simpl in *.
      apply andb_prop in F as [Fa F]. rewrite Fa. auto. }
    rewrite G2 in E; [discriminate|].
    apply replace_prefix_back; [|exact G1].
    destruct (tl P) as [|b p]; [left; reflexivity|].
    right. simpl. left. reflexivity.
Qed.

Lemma replace_idempotent (s : str) :
  str_replace P R (str_replace P R s) = str_replace P R s.
Proof. apply replace_absent, replace_clean. Qed.

(** *** Lines *)

Hypothesis P_one_line : no_newline P = true.
Hypothesis R_one_line : no_newline R = true.

Lemma replace_lines (s : str) :
  split_lines (str_replace P R s) = List.map (str_replace P R) (split_lines s).
Proof.
  induction s as [|t IH|c t E IH] using replace_ind.
  - rewrite replace_nil. simpl. rewrite replace_nil. reflexivity.
  - rewrite replace_hit, !split_lines_app, IH by assumption.
    destruct (split_lines t) as [|l ls] eqn:Et; simpl.
    + exfalso. exact (split_lines_nonempty t Et).
    + rewrite replace_hit. reflexivity.
  - rewrite (replace_miss _ _ E). simpl.
    destruct (char_eqb c newline) eqn:Hc.
    + simpl. rewrite replace_nil, IH. reflexivity.
    + rewrite IH. destruct (split_lines t) as [|l ls] eqn:Et; simpl.
      * exfalso. exact (split_lines_nonempty t Et).
      * rewrite replace_miss; [reflexivity|].
        destruct (split_lines_prefix _ _ _ Et) as [u ->].
        destruct (startswith (c :: l) P) eqn:F; [|reflexivity].
        change (c :: l ++ u) with ((c :: l) ++ u) in E.
        rewrite (startswith_weaken _ u _ F) in E. discriminate.
Qed.

End Replace.

(** ** The script's pattern and replacement *)

Lemma old_pattern_compiles :
  Re.parse old_pattern = Some (List.map Re.Literal Pattern).
Proof. vm_compute. reflexivity. Qed.

Lemma new_line_template : Re.expand_template new_line = Some Replacement.
Proof. vm_compute. reflexivity. Qed.

Lemma Pattern_nonempty : Pattern <> [].
Proof.
  intros H. apply (f_equal (@length char)) in H.
  vm_compute in H. discriminate.
Qed.

Lemma Pattern_border_free : border_free Pattern = true.
Proof. vm_compute. reflexivity. Qed.

Lemma Pattern_seam_free : seam_free Pattern Replacement = true.
Proof. vm_compute. reflexivity. Qed.

Lemma Pattern_one_line : no_newline Pattern = true.
Proof. vm_compute. reflexivity. Qed.

Lemma Replacement_one_line : no_newline Replacement = true.
Proof. vm_compute. reflexivity. Qed.

Lemma Pattern_length : length Pattern = 79.
Proof. vm_compute. reflexivity. Qed.

Lemma Replacement_length : length Replacement = 12.
Proof. vm_compute. reflexivity. Qed.

(** [re.sub] with the script's arguments is the fixed-string
    replacement of Pattern by Replacement. *)
Lemma sub_fixed_string (s : str) :
  Re.sub old_pattern new_line s = Some (str_replace Pattern Replacement s).
Proof.
  unfold Re.sub. rewrite old_pattern_compiles, new_line_template.
  rewrite (sub_loop_literal _ _ _ Pattern_nonempty). reflexivity.
Qed.

Lemma occurrences_one (pre post : str) :
  occurrences Pattern (pre ++ Pattern ++ post) = 1 ->
  occurrences Pattern pre = 0 /\ occurrences Pattern post = 0.
Proof.
  intros H.
  pose proof (occurrences_app Pattern pre (Pattern ++ post)).
  pose proof (occurrences_hit Pattern post Pattern_nonempty).
  lia.
Qed.

Lemma occurrences_two (a b c : str) :
  occurrences Pattern (a ++ Pattern ++ b ++ Pattern ++ c) = 2 ->
  occurrences Pattern a = 0 /\ occurrences Pattern b = 0 /\
  occurrences Pattern c = 0.
Proof.
  intros H.
  pose proof (occurrences_app Pattern a (Pattern ++ b ++ Pattern ++ c)).
  pose proof (occurrences_hit Pattern (b ++ Pattern ++ c) Pattern_nonempty).
  pose proof (occurrences_app Pattern b (Pattern ++ c)).
  pose proof (occurrences_hit Pattern c Pattern_nonempty).
  lia.
Qed.

Lemma skipn_past (a x : str) : skipn (length a) (a ++ x) = x.
Proof. induction a as [|c a IH]; [reflexivity | exact IH]. Qed.

Lemma firstn_upto (a x : str) : firstn (length a) (a ++ x) = a.
Proof. induction a as [|c a IH]; [reflexivity | simpl; f_equal; exact IH]. Qed.

Lemma replace_at_here (a x : str) :
  replace_at (length a) (a ++ Pattern ++ x) = a ++ Replacement ++ x.
Proof.
  unfold replace_at.
  rewrite skipn_past, startswith_app, firstn_upto.
  f_equal. f_equal.
  replace (length a + length Pattern) with (length (a ++ Pattern))
    by (rewrite length_app; reflexivity).
  rewrite (app_assoc a Pattern x). apply skipn_past.
Qed.

(** ** Runs of the script *)

(** What a run does, by the state of the target file. *)
Lemma main_run (w : world) :
  main w =
  match files w !! target_path with
  | None => (inl FileNotFoundError, w)
  | Some f =>
      if negb (readable f) then (inl PermissionError, w)
      else match text f with
           | None => (inl UnicodeDecodeError, w)
           | Some raw =>
               let w1 := mkWorld (files w) (stdout w)
                                 (io_log w ++ [EvRead target_path]) (os w) in
               let out :=
                 str_replace Pattern Replacement (universal_newlines raw) in
               let stored := translate_newlines (os_linesep (os w)) out in
               if negb (writable f) then (inl PermissionError, w1)
               else
                 (inr tt,
                  mkWorld
                    (<[target_path := mkFile (readable f) true (Some stored)]> (files w))
                    ((stdout w ++ lit "File updated successfully!" ++ [newline])
                     ++ fstring [FText (lit "Replacements made")] ++ [newline])
                    ((io_log w ++ [EvRead target_path])
                     ++ [EvWrite target_path out])
                    (os w))
           end
  end.
Proof.
  unfold main, bind, read_text.
  destruct (files w !! target_path) as [f|] eqn:Hf; [|reflexivity].
  destruct (negb (readable f)); [reflexivity|].
  destruct (text f) as [raw|]; [|reflexivity].
  unfold re_sub. rewrite sub_fixed_string. unfold ret, write_text.
  cbn [files stdout io_log os]. rewrite Hf.
  destruct (negb (writable f)); reflexivity.
Qed.

(** A run that completes found the target readable, writable and
    decodable. *)
Lemma main_completed (w : world) :
  fst (main w) = inr tt ->
  exists f raw,
    files w !! target_path = Some f /\
    readable f = true /\ writable f = true /\ text f = Some raw.
Proof.
  rewrite main_run.
  destruct (files w !! target_path) as [f|]; [|discriminate].
  destruct (readable f) eqn:Hr; [|discriminate].
  destruct (text f) as [raw|] eqn:Ht; [|discriminate].
  cbv zeta. destruct (writable f) eqn:Hw; [|discriminate].
  intros _. exists f, raw. auto.
Qed.

(** *** Line breaks through text mode *)

Lemma universal_newlines_no_cr (s : str) :
  List.filter (char_eqb cr) (universal_newlines s) = [].
Proof.
  remember (length s) as n eqn:Hn. revert s Hn.
  induction n as [n IH] using lt_wf_ind. intros s Hn.
  destruct s as [|c s]; [reflexivity|].
  cbn [universal_newlines]. destruct (char_eqb c cr) eqn:Hc.
  - destruct s as [|d s]; [reflexivity|].
    destruct (char_eqb d newline); cbn [List.filter];
      change (char_eqb cr newline) with false; cbn iota.
    + apply (IH (length s)); [subst n; simpl; lia | reflexivity].
    + apply (IH (length (d :: s))); [subst n; simpl; lia | reflexivity].
  - cbn [List.filter].
    unfold char_eqb in *. rewrite N.eqb_sym, Hc.
    apply (IH (length s)); [subst n; simpl; lia | reflexivity].
Qed.

Lemma universal_newlines_linesep (p : platform) (x : str) :
  universal_newlines (os_linesep p ++ x) = newline :: universal_newlines x.
Proof. destruct p; reflexivity. Qed.

(** Reading back what was written: text without carriage returns comes
    back as it was, on either platform. *)
Lemma read_back (p : platform) (s : str) :
  List.filter (char_eqb cr) s = [] ->
  universal_newlines (translate_newlines (os_linesep p) s) = s.
Proof.
  induction s as [|c s IH]; intros H; [reflexivity|].
  cbn [List.filter] in H.
  destruct (char_eqb cr c) eqn:Hc; [discriminate|].
  cbn [translate_newlines]. destruct (char_eqb c newline) eqn:Hn.
  - apply char_eqb_eq in Hn. subst c.
    rewrite universal_newlines_linesep, (IH H). reflexivity.
  - cbn [universal_newlines].
    assert (char_eqb c cr = false) as ->
      by (unfold char_eqb in *; rewrite N.eqb_sym; exact Hc).
    rewrite (IH H). reflexivity.
Qed.

Lemma Pattern_no_cr : existsb (char_eqb cr) Pattern = false.
Proof. vm_compute. reflexivity. Qed.

Lemma Replacement_no_cr : existsb (char_eqb cr) Replacement = false.
Proof. vm_compute. reflexivity. Qed.

(** ** The properties of the specification *)

(** C1. Substitution correctness: when Pattern occurs exactly once in
    the content, at the place between [pre] and [post], [re.sub] returns
    the content with that occurrence replaced by [return text;] and the
    text before and after it unchanged. *)
Theorem substitution_single_occurrence (pre post : str) :
  occurrences Pattern (pre ++ Pattern ++ post) = 1 ->
  Re.sub old_pattern new_line (pre ++ Pattern ++ post)
  = Some (pre ++ Replacement ++ post).
Proof.
  intros H. apply occurrences_one in H as [Hpre Hpost].
  rewrite sub_fixed_string.
  rewrite (replace_around _ _ Pattern_nonempty Pattern_border_free).
  rewrite !(replace_absent _ _ Pattern_nonempty) by assumption.
  reflexivity.
Qed.

Lemma substitution_single_occurrence_witness :
  occurrences Pattern (lit "  " ++ Pattern ++ lit " // done") = 1 /\
  Re.sub old_pattern new_line (lit "  " ++ Pattern ++ lit " // done")
  = Some (lit "  " ++ Replacement ++ lit " // done").
Proof.
  split; [vm_compute; reflexivity|].
  apply (substitution_single_occurrence (lit "  ") (lit " // done")).
  vm_compute. reflexivity.
Defined.

(** C2. Idempotence: for every content the substitution returns a text
    in which Pattern does not occur, and substituting again returns that
    same text. *)
Theorem substitution_idempotent (s : str) :
  exists out,
    Re.sub old_pattern new_line s = Some out /\
    occurrences Pattern out = 0 /\
    Re.sub old_pattern new_line out = Some out.
Proof.
  exists (str_replace Pattern Replacement s).
  split; [apply sub_fixed_string|]. split.
  - apply (replace_clean _ _ Pattern_nonempty Pattern_seam_free).
  - rewrite sub_fixed_string. f_equal.
    apply (replace_idempotent _ _ Pattern_nonempty Pattern_seam_free).
Qed.

(** C3. No-match pass-through, as the code has it: when Pattern does
    not occur in the content read from the target, the substitution
    returns that content unchanged, and a run that completes has still
    written: its log ends with the write of that same text and the
    target holds it, each line break written as the line separator of
    the platform.  The file is left as it was whenever its line breaks
    already were that separator. *)
Theorem no_match_still_writes (w : world) (f : file) (raw : str) :
  files w !! target_path = Some f ->
  text f = Some raw ->
  occurrences Pattern (universal_newlines raw) = 0 ->
  fst (main w) = inr tt ->
  Re.sub old_pattern new_line (universal_newlines raw)
  = Some (universal_newlines raw) /\
  io_log (snd (main w))
  = io_log w ++ [EvRead target_path;
                 EvWrite target_path (universal_newlines raw)] /\
  files (snd (main w)) !! target_path
  = Some (mkFile (readable f) (writable f)
            (Some (translate_newlines (os_linesep (os w))
                     (universal_newlines raw)))) /\
  (translate_newlines (os_linesep (os w)) (universal_newlines raw) = raw ->
   files (snd (main w)) = files w).
Proof.
  intros Hf Ht Hocc Hdone.
  pose proof (replace_absent Pattern Replacement Pattern_nonempty _ Hocc) as E.
  split; [rewrite sub_fixed_string, E; reflexivity|].
  revert Hdone. rewrite main_run, Hf, Ht.
  destruct (readable f) eqn:Hr; [|discriminate].
  cbv zeta. destruct (writable f) eqn:Hw; [|discriminate].
  cbn [negb fst snd files io_log]. rewrite E. intros _.
  split; [rewrite <- app_assoc; reflexivity|].
  split; [apply lookup_insert_eq|].
  intros ->. apply insert_id. rewrite Hf.
  destruct f as [r wr tx]. simpl in *. subst. reflexivity.
Qed.

Lemma no_match_still_writes_witness :
  io_log (snd (main (mkWorld
                      {[ target_path :=
                           mkFile true true
                             (Some (lit "const x = 1;" ++ [newline] ++ lit "x")) ]}
                      [] [] Posix)))
  = [EvRead target_path;
     EvWrite target_path (lit "const x = 1;" ++ [newline] ++ lit "x")] /\
  files (snd (main (mkWorld
                      {[ target_path :=
                           mkFile true true
                             (Some (lit "const x = 1;" ++ [newline] ++ lit "x")) ]}
                      [] [] Posix)))
  = {[ target_path :=
         mkFile true true (Some (lit "const x = 1;" ++ [newline] ++ lit "x")) ]}.
Proof.
  destruct (no_match_still_writes
              (mkWorld
                 {[ target_path :=
                      mkFile true true
                        (Some (lit "const x = 1;" ++ [newline] ++ lit "x")) ]}
                 [] [] Posix)
              (mkFile true true (Some (lit "const x = 1;" ++ [newline] ++ lit "x")))
              (lit "const x = 1;" ++ [newline] ++ lit "x"))
    as (_ & Hlog & _ & Hsame).
  - apply lookup_singleton_eq.
  - reflexivity.
  - vm_compute. reflexivity.
  - vm_compute. reflexivity.
  - split; [exact Hlog|]. apply Hsame. vm_compute. reflexivity.
Defined.

(** The target is not always rewritten with the content it had: a
    file without Pattern whose line breaks are carriage return and line
    feed is left with bare line feeds on a Posix platform, and one with
    bare line feeds is left with carriage return and line feed on
    Windows. *)
Lemma no_match_pass_through_counterexample :
  (occurrences Pattern (lit "a" ++ [cr; newline] ++ lit "b") = 0 /\
   fst (main (mkWorld
                {[ target_path :=
                     mkFile true true (Some (lit "a" ++ [cr; newline] ++ lit "b")) ]}
                [] [] Posix)) = inr tt /\
   files (snd (main (mkWorld
                {[ target_path :=
                     mkFile true true (Some (lit "a" ++ [cr; newline] ++ lit "b")) ]}
                [] [] Posix))) !! target_path
   = Some (mkFile true true (Some (lit "a" ++ [newline] ++ lit "b"))) /\
   lit "a" ++ [newline] ++ lit "b" <> lit "a" ++ [cr; newline] ++ lit "b") /\
  (occurrences Pattern (lit "a" ++ [newline] ++ lit "b") = 0 /\
   fst (main (mkWorld
                {[ target_path :=
                     mkFile true true (Some (lit "a" ++ [newline] ++ lit "b")) ]}
                [] [] Windows)) = inr tt /\
   files (snd (main (mkWorld
                {[ target_path :=
                     mkFile true true (Some (lit "a" ++ [newline] ++ lit "b")) ]}
                [] [] Windows))) !! target_path
   = Some (mkFile true true (Some (lit "a" ++ [cr; newline] ++ lit "b"))) /\
   lit "a" ++ [cr; newline] ++ lit "b" <> lit "a" ++ [newline] ++ lit "b").
Proof.
  split; (split; [vm_compute; reflexivity|]);
    (split; [vm_compute; reflexivity|]);
    (split; [vm_compute; reflexivity | vm_compute; discriminate]).
Qed.

(** C4. Global replacement in one pass: an occurrence of Pattern is
    replaced wherever it stands, the text on either side being
    substituted on its own; a content made of occurrence-free segments
    with Pattern between them comes out with Replacement between them;
    and when Pattern occurs exactly twice, both occurrences are
    replaced, which is also what replacing them one at a time gives, in
    either order. *)
Theorem global_replacement :
  (forall a b, exists a' b',
      Re.sub old_pattern new_line a = Some a' /\
      Re.sub old_pattern new_line b = Some b' /\
      Re.sub old_pattern new_line (a ++ Pattern ++ b)
      = Some (a' ++ Replacement ++ b')) /\
  (forall segs,
      Forall (fun x => occurrences Pattern x = 0) segs ->
      Re.sub old_pattern new_line (join Pattern segs)
      = Some (join Replacement segs)) /\
  (forall a b c,
      let s := a ++ Pattern ++ b ++ Pattern ++ c in
      let out := a ++ Replacement ++ b ++ Replacement ++ c in
      occurrences Pattern s = 2 ->
      Re.sub old_pattern new_line s = Some out /\
      replace_at (length a + length Replacement + length b)
                 (replace_at (length a) s) = out /\
      replace_at (length a)
                 (replace_at (length a + length Pattern + length b) s) = out).
Proof.
  pose proof (replace_around Pattern Replacement
                Pattern_nonempty Pattern_border_free) as Haround.
  pose proof (replace_absent Pattern Replacement Pattern_nonempty) as Habsent.
  split; [|split].
  - intros a b. exists (str_replace Pattern Replacement a),
      (str_replace Pattern Replacement b).
    rewrite !sub_fixed_string, Haround. auto.
  - intros segs Hsegs. rewrite sub_fixed_string. f_equal.
    induction Hsegs as [|x rest Hx Hrest IH].
    + apply replace_nil, Pattern_nonempty.
    + destruct rest as [|y rest]; [apply Habsent, Hx|].
      change (join Pattern (x :: y :: rest))
        with (x ++ Pattern ++ join Pattern (y :: rest)).
      rewrite Haround, IH, (Habsent x Hx). reflexivity.
  - intros a b c s out H. subst s out.
    apply occurrences_two in H as (Ha & Hb & Hc).
    split; [|split].
    + rewrite sub_fixed_string, !Haround.
      rewrite (Habsent a Ha), (Habsent b Hb), (Habsent c Hc). reflexivity.
    + rewrite replace_at_here.
      replace (length a + length Replacement + length b)
        with (length (a ++ Replacement ++ b)) by (rewrite !length_app; lia).
      replace (a ++ Replacement ++ b ++ Pattern ++ c)
        with ((a ++ Replacement ++ b) ++ Pattern ++ c)
        by (rewrite <- !app_assoc; reflexivity).
      rewrite replace_at_here, <- !app_assoc. reflexivity.
    + replace (length a + length Pattern + length b)
        with (length (a ++ Pattern ++ b)) by (rewrite !length_app; lia).
      replace (a ++ Pattern ++ b ++ Pattern ++ c)
        with ((a ++ Pattern ++ b) ++ Pattern ++ c)
        by (rewrite <- !app_assoc; reflexivity).
      rewrite replace_at_here, <- !app_assoc.
      apply replace_at_here.
Qed.

Lemma global_replacement_witness :
  let a := lit "f(){" in
  let b := lit "} g(){" in
  let c := lit "}" in
  Re.sub old_pattern new_line (join Pattern [a; b; c])
  = Some (join Replacement [a; b; c]) /\
  Re.sub old_pattern new_line (a ++ Pattern ++ b ++ Pattern ++ c)
  = Some (a ++ Replacement ++ b ++ Replacement ++ c).
Proof.
  intros a b c.
  destruct global_replacement as (_ & Hjoin & Htwo). split.
  - apply (Hjoin [a; b; c]).
    repeat constructor; vm_compute; reflexivity.
  - apply (Htwo a b c). vm_compute. reflexivity.
Defined.

(** C5. The concrete scenario: the content made of the single line
    [return text.replace(/&/g, '&amp;').replace(/</g, '&lt;').replace(/>/g, '&gt;');]
    becomes the single line [return text;], with and without the final
    line break, and nothing of the original expression is left. *)
Theorem concrete_scenario :
  Re.sub old_pattern new_line
    (lit "return text.replace(/&/g, '&amp;').replace(/</g, '&lt;').replace(/>/g, '&gt;');")
  = Some (lit "return text;") /\
  Re.sub old_pattern new_line
    (lit "return text.replace(/&/g, '&amp;').replace(/</g, '&lt;').replace(/>/g, '&gt;');"
     ++ [newline])
  = Some (lit "return text;" ++ [newline]).
Proof. split; vm_compute; reflexivity. Qed.

(** C6. A failed read: when reading the target raises, because the file
    is missing, is not readable or does not decode as UTF-8, the run
    ends with that error and leaves the files, the standard output and
    the log of reads and writes as they were. *)
Theorem read_failure_leaves_world (w : world) (e : py_error) :
  fst (read_text target_path w) = inl e ->
  main w = (inl e, w) /\
  ((files w !! target_path = None /\ e = FileNotFoundError) \/
   (exists f, files w !! target_path = Some f /\
              readable f = false /\ e = PermissionError) \/
   (exists f, files w !! target_path = Some f /\
              readable f = true /\ text f = None /\ e = UnicodeDecodeError)).
Proof.
  rewrite main_run. unfold read_text.
  destruct (files w !! target_path) as [f|] eqn:Hf.
  - destruct (readable f) eqn:Hr; simpl.
    + destruct (text f) as [t|] eqn:Ht; simpl; [discriminate|].
      intros H. injection H as <-. split; [reflexivity|].
      right. right. exists f. auto.
    + intros H. injection H as <-. split; [reflexivity|].
      right. left. exists f. auto.
  - simpl. intros H. injection H as <-. split; [reflexivity|].
    left. auto.
Qed.

Lemma read_failure_leaves_world_witness :
  main (mkWorld ∅ (lit "$ ") [] Windows)
  = (inl FileNotFoundError, mkWorld ∅ (lit "$ ") [] Windows) /\
  main (mkWorld {[ target_path := mkFile true true None ]} [] [] Posix)
  = (inl UnicodeDecodeError,
     mkWorld {[ target_path := mkFile true true None ]} [] [] Posix).
Proof.
  split.
  - apply (read_failure_leaves_world (mkWorld ∅ (lit "$ ") [] Windows)
             FileNotFoundError).
    reflexivity.
  - apply (read_failure_leaves_world
             (mkWorld {[ target_path := mkFile true true None ]} [] [] Posix)
             UnicodeDecodeError).
    unfold read_text. cbn [files]. rewrite lookup_singleton_eq. reflexivity.
Defined.

(** C7. The status lines: a run that completes appends to the standard
    output exactly the line [File updated successfully!] and then the
    line [Replacements made], whatever the content was; the second line
    holds no digit. *)
Theorem status_lines_fixed (w : world) :
  fst (main w) = inr tt ->
  stdout (snd (main w))
  = stdout w ++ lit "File updated successfully!" ++ [newline]
             ++ lit "Replacements made" ++ [newline] /\
  existsb is_digit (fstring [FText (lit "Replacements made")]) = false.
Proof.
  rewrite main_run. intros H. split; [|vm_compute; reflexivity].
  destruct (files w !! target_path) as [f|]; [|discriminate].
  destruct (negb (readable f)); [discriminate|].
  destruct (text f) as [t|]; [|discriminate].
  cbv zeta in *. destruct (negb (writable f)); [discriminate|].
  cbn [snd stdout]. unfold fstring. cbn [List.map List.concat].
  rewrite app_nil_r, <- !app_assoc. reflexivity.
Qed.

Lemma status_lines_fixed_witness :
  let w := mkWorld {[ target_path := mkFile true true (Some Pattern) ]} [] []
                   Windows in
  stdout (snd (main w))
  = lit "File updated successfully!" ++ [newline]
    ++ lit "Replacements made" ++ [newline].
Proof.
  intros w.
  apply (status_lines_fixed w).
  rewrite main_run. unfold w. cbn [files]. rewrite lookup_singleton_eq.
  reflexivity.
Defined.

(** C8. The pattern is a fixed string: [old_pattern] compiles to
    literal items only (no dot, and nothing outside the literal
    fragment), the compiled pattern matches at the start of a text
    exactly when the text starts with Pattern, and [re.sub] with the
    script's arguments equals, on every content, the plain replacement
    of the string Pattern by [return text;]. *)
Theorem regex_is_fixed_string :
  exists p,
    Re.parse old_pattern = Some p /\
    forallb Re.is_literal p = true /\
    (forall s n, Re.match_len p s = Some n <->
                 n = length Pattern /\ exists t, s = Pattern ++ t) /\
    (forall s, Re.sub old_pattern new_line s
               = Some (str_replace Pattern Replacement s)).
Proof.
  exists (List.map Re.Literal Pattern).
  split; [apply old_pattern_compiles|].
  split; [vm_compute; reflexivity|].
  split; [|apply sub_fixed_string].
  intros s n. rewrite match_len_literal.
  destruct (startswith s Pattern) eqn:E.
  - apply startswith_iff in E. split.
    + intros H. injection H as <-. auto.
    + intros [-> _]. reflexivity.
  - split; [discriminate|]. intros [_ H].
    apply startswith_iff in H. congruence.
Qed.

(** C9. Line structure: Pattern and the replacement hold no line break,
    and for every content the output has as many lines as the input and
    every line of the input in which Pattern does not occur is the line
    at the same place in the output. *)
Theorem line_structure_preserved (s : str) :
  no_newline Pattern = true /\ no_newline new_line = true /\
  exists out,
    Re.sub old_pattern new_line s = Some out /\
    length (split_lines out) = length (split_lines s) /\
    (forall i l,
        nth_error (split_lines s) i = Some l ->
        occurrences Pattern l = 0 ->
        nth_error (split_lines out) i = Some l).
Proof.
  split; [apply Pattern_one_line|]. split; [apply Replacement_one_line|].
  exists (str_replace Pattern Replacement s).
  split; [apply sub_fixed_string|].
  rewrite (replace_lines _ _ Pattern_nonempty Pattern_one_line Replacement_one_line).
  split; [apply List.length_map|].
  intros i l Hl Hocc. rewrite nth_error_map, Hl. simpl. f_equal.
  apply (replace_absent _ _ Pattern_nonempty). exact Hocc.
Qed.

Lemma line_structure_preserved_witness :
  exists out,
    Re.sub old_pattern new_line
      (lit "function esc(text) {" ++ [newline] ++ Pattern ++ [newline] ++ lit "}")
    = Some out /\
    nth_error (split_lines out) 2 = Some (lit "}").
Proof.
  destruct (line_structure_preserved
              (lit "function esc(text) {" ++ [newline] ++ Pattern ++ [newline] ++ lit "}"))
    as (_ & _ & out & Hout & _ & Hline).
  exists out. split; [exact Hout|].
  apply (Hline 2 (lit "}")); vm_compute; reflexivity.
Defined.

(** C10. Length: every match is 79 characters long and the replacement
    12, so for every content the output is no longer than the input, and
    it has the same length exactly when Pattern does not occur in the
    input. *)
Theorem length_never_grows (s : str) :
  length new_line < length Pattern /\
  exists out,
    Re.sub old_pattern new_line s = Some out /\
    length out <= length s /\
    (length out = length s <-> occurrences Pattern s = 0).
Proof.
  assert (length Replacement < length Pattern) as Hlt
    by (rewrite Pattern_length, Replacement_length; lia).
  split; [exact Hlt|].
  exists (str_replace Pattern Replacement s).
  split; [apply sub_fixed_string|].
  split; [apply (replace_length_le _ _ Pattern_nonempty); lia|].
  split.
  - intros H.
    apply (replace_length_eq _ _ Pattern_nonempty s Hlt) in H.
    rewrite <- H.
    apply (replace_clean _ _ Pattern_nonempty Pattern_seam_free).
  - intros H. rewrite (replace_absent _ _ Pattern_nonempty s H). reflexivity.
Qed.

(** ** Further properties of the substitution *)

Lemma clash_sym (a b : str) : clash a b = clash b a.
Proof.
  revert b. induction a as [|x a IH]; intros [|y b]; simpl; try reflexivity.
  unfold char_eqb. rewrite (N.eqb_sym x y), IH. reflexivity.
Qed.

Lemma startswith_length (s p : str) :
  startswith s p = true -> length p <= length s.
Proof.
  intros H. apply startswith_iff in H as [t ->].
  rewrite length_app. lia.
Qed.

Lemma occurrences_short (p s : str) :
  length s < length p -> occurrences p s = 0.
Proof.
  induction s as [|c s IH]; intros H; [reflexivity|].
  simpl occurrences.
  destruct (startswith (c :: s) p) eqn:E.
  - apply startswith_length in E. lia.
  - apply IH. simpl in H. lia.
Qed.

Section ReplaceCount.

Variables P R : str.
Hypothesis P_nonempty : P <> [].
Hypothesis P_border_free : border_free P = true.

(** A suffix of [P] in front of a text adds no occurrence. *)
Lemma occurrences_skip (q t : str) :
  forallb (fun q' => clash q' P) (tails q) = true ->
  occurrences P (q ++ t) = occurrences P t.
Proof.
  induction q as [|c q IH]; intros H; [reflexivity|].
  cbn [forallb tails] in H. apply andb_prop in H as [Hc Hq].
  change (occurrences P ((c :: q) ++ t))
    with ((if startswith ((c :: q) ++ t) P then 1 else 0) + occurrences P (q ++ t)).
  rewrite clash_sym in Hc.
  rewrite (clash_startswith _ _ _ Hc), (IH Hq). reflexivity.
Qed.

Lemma occurrences_hit_exact (t : str) :
  occurrences P (P ++ t) = 1 + occurrences P t.
Proof.
  pose proof P_border_free as Hb. unfold border_free in Hb.
  pose proof (startswith_app P t) as Hs.
  assert (exists a, P = a :: tl P) as [a Ha]
    by (destruct P as [|a p]; [congruence | exists a; reflexivity]).
  remember (tl P) as p eqn:Hp.
  assert (P ++ t = a :: (p ++ t)) as E by (rewrite Ha at 1; reflexivity).
  rewrite E in *.
  change (occurrences P (a :: (p ++ t)))
    with ((if startswith (a :: (p ++ t)) P then 1 else 0)
          + occurrences P (p ++ t)).
  rewrite Hs. f_equal. apply occurrences_skip. exact Hb.
Qed.

Lemma replace_length_exact (s : str) :
  length R <= length P ->
  length (str_replace P R s) + (length P - length R) * occurrences P s
  = length s.
Proof.
  intros HR. induction s as [|t IH|c t E IH] using (replace_ind P P_nonempty).
  - rewrite (replace_nil P R P_nonempty). simpl. lia.
  - rewrite (replace_hit P R P_nonempty), occurrences_hit_exact, !length_app.
    nia.
  - rewrite (replace_miss P R c t E).
    change (occurrences P (c :: t))
      with ((if startswith (c :: t) P then 1 else 0) + occurrences P t).
    rewrite E. simpl. lia.
Qed.

Lemma replace_filter (keep : char -> bool) (s : str) :
  List.filter keep P = [] -> List.filter keep R = [] ->
  List.filter keep (str_replace P R s) = List.filter keep s.
Proof.
  intros HP HR. induction s as [|t IH|c t E IH] using (replace_ind P P_nonempty).
  - rewrite (replace_nil P R P_nonempty). reflexivity.
  - rewrite (replace_hit P R P_nonempty), !List.filter_app, HP, HR, IH.
    reflexivity.
  - rewrite (replace_miss P R c t E). simpl. rewrite IH. reflexivity.
Qed.

End ReplaceCount.

Lemma filter_existsb (keep : char -> bool) (l : str) :
  existsb keep l = false -> List.filter keep l = [].
Proof.
  induction l as [|x l IH]; intros H; [reflexivity|].
  simpl in *. apply orb_false_elim in H as [Hx Hl].
  rewrite Hx. apply IH. exact Hl.
Qed.

(** The substitution brings in no carriage return. *)
Lemma replace_no_cr (t : str) :
  List.filter (char_eqb cr) t = [] ->
  List.filter (char_eqb cr) (str_replace Pattern Replacement t) = [].
Proof.
  intros H.
  rewrite (replace_filter Pattern Replacement Pattern_nonempty (char_eqb cr));
    [exact H | apply filter_existsb, Pattern_no_cr
    | apply filter_existsb, Replacement_no_cr].
Qed.

(** ** Further properties of the script *)



(** X4. What a completed run leaves in the target: the content that was
    read (the file's characters with every line break folded into a
    line feed) after [re.sub], written with each line feed as the line
    separator of the platform; the permissions of the file are as
    before, and the log gains the read and then the write of the
    substituted text. *)
Theorem completed_run_result (w : world) (f : file) (raw : str) :
  files w !! target_path = Some f ->
  text f = Some raw ->
  fst (main w) = inr tt ->
  exists out,
    Re.sub old_pattern new_line (universal_newlines raw) = Some out /\
    files (snd (main w)) !! target_path
    = Some (mkFile (readable f) (writable f)
              (Some (translate_newlines (os_linesep (os w)) out))) /\
    io_log (snd (main w))
    = io_log w ++ [EvRead target_path; EvWrite target_path out].
Proof.
  intros Hf Ht Hdone.
  exists (str_replace Pattern Replacement (universal_newlines raw)).
  split; [apply sub_fixed_string|].
  revert Hdone. rewrite main_run, Hf, Ht.
  destruct (readable f) eqn:Hr; [|discriminate].
  cbv zeta. destruct (writable f) eqn:Hw; [|discriminate].
  cbn [negb fst snd files io_log]. intros _.
  split; [apply lookup_insert_eq | rewrite <- app_assoc; reflexivity].
Qed.

Lemma completed_run_result_witness :
  exists out,
    Re.sub old_pattern new_line
      (universal_newlines (lit "a" ++ [cr; newline] ++ Pattern ++ [cr] ++ lit "b"))
    = Some out /\
    files (snd (main (mkWorld
                        {[ target_path :=
                             mkFile true true
                               (Some (lit "a" ++ [cr; newline] ++ Pattern
                                      ++ [cr] ++ lit "b")) ]}
                        [] [] Windows))) !! target_path
    = Some (mkFile true true
              (Some (translate_newlines (os_linesep Windows) out))) /\
    translate_newlines (os_linesep Windows) out
    = lit "a" ++ [cr; newline] ++ lit "return text;" ++ [cr; newline] ++ lit "b".
Proof.
  destruct (completed_run_result
              (mkWorld
                 {[ target_path :=
                      mkFile true true
                        (Some (lit "a" ++ [cr; newline] ++ Pattern
                               ++ [cr] ++ lit "b")) ]}
                 [] [] Windows)
              (mkFile true true
                 (Some (lit "a" ++ [cr; newline] ++ Pattern ++ [cr] ++ lit "b")))
              (lit "a" ++ [cr; newline] ++ Pattern ++ [cr] ++ lit "b"))
    as (out & Hout & Hfile & _).
  - apply lookup_singleton_eq.
  - reflexivity.
  - vm_compute. reflexivity.
  - exists out. split; [exact Hout|]. split; [exact Hfile|].
    rewrite sub_fixed_string in Hout. injection Hout as <-.
    vm_compute. reflexivity.
Defined.

(** X6. Running the script again: after a run that completed, a second
    run completes too, leaves every file as the first run left it, and
    prints the two status lines once more. *)
Theorem second_run_changes_no_file (w : world) :
  fst (main w) = inr tt ->
  fst (main (snd (main w))) = inr tt /\
  files (snd (main (snd (main w)))) = files (snd (main w)) /\
  stdout (snd (main (snd (main w))))
  = stdout (snd (main w)) ++ lit "File updated successfully!" ++ [newline]
                          ++ lit "Replacements made" ++ [newline].
Proof.
  intros H. apply main_completed in H as (f & raw & Hf & Hr & Hw & Ht).
  remember (str_replace Pattern Replacement (universal_newlines raw)) as out
    eqn:Hout.
  remember (translate_newlines (os_linesep (os w)) out) as stored eqn:Hst.
  assert (main w
          = (inr tt,
             mkWorld (<[target_path := mkFile true true (Some stored)]> (files w))
               ((stdout w ++ lit "File updated successfully!" ++ [newline])
                ++ fstring [FText (lit "Replacements made")] ++ [newline])
               ((io_log w ++ [EvRead target_path]) ++ [EvWrite target_path out])
               (os w))) as Hrun
    by (rewrite main_run, Hf, Hr, Ht, Hw; subst; reflexivity).
  rewrite Hrun. cbn [snd].
  assert (List.filter (char_eqb cr) out = []) as Hcr
    by (subst out; apply replace_no_cr, universal_newlines_no_cr).
  assert (universal_newlines stored = out) as Hback
    by (subst stored; apply read_back, Hcr).
  assert (str_replace Pattern Replacement out = out) as Hidem.
  { subst out.
    apply (replace_idempotent _ _ Pattern_nonempty Pattern_seam_free). }
  rewrite main_run. cbn [files stdout io_log os].
  rewrite lookup_insert_eq. cbn [readable writable text negb].
  rewrite Hback, Hidem, <- Hst. cbn [fst snd files stdout].
  split; [reflexivity|]. split; [apply insert_insert_eq|].
  unfold fstring. cbn [List.map List.concat].
  rewrite app_nil_r, <- !app_assoc. reflexivity.
Qed.

Lemma second_run_changes_no_file_witness :
  let w := mkWorld {[ target_path :=
                        mkFile true true
                          (Some (Pattern ++ [cr; newline] ++ Pattern)) ]}
                   [] [] Windows in
  files (snd (main (snd (main w)))) = files (snd (main w)).
Proof.
  intros w.
  apply (second_run_changes_no_file w).
  rewrite main_run. unfold w. cbn [files]. rewrite lookup_singleton_eq.
  reflexivity.
Defined.

(** X11. After a run that completed, the target read again in text mode
    is exactly what [re.sub] returned, and Pattern does not occur in
    it. *)
Theorem patched_target_is_clean (w : world) (f : file) (raw : str) :
  files w !! target_path = Some f ->
  text f = Some raw ->
  fst (main w) = inr tt ->
  exists out,
    Re.sub old_pattern new_line (universal_newlines raw) = Some out /\
    fst (read_text target_path (snd (main w))) = inr out /\
    occurrences Pattern out = 0.
Proof.
  intros Hf Ht Hdone.
  exists (str_replace Pattern Replacement (universal_newlines raw)).
  split; [apply sub_fixed_string|].
  split; [|apply (replace_clean _ _ Pattern_nonempty Pattern_seam_free)].
  revert Hdone. rewrite main_run, Hf, Ht.
  destruct (readable f) eqn:Hr; [|discriminate].
  cbv zeta. destruct (writable f) eqn:Hw; [|discriminate].
  cbn [negb fst snd]. intros _.
  unfold read_text. cbn [files stdout io_log os].
  rewrite lookup_insert_eq. cbn [readable text negb fst].
  rewrite read_back; [reflexivity|].
  apply replace_no_cr, universal_newlines_no_cr.
Qed.

Lemma patched_target_is_clean_witness :
  exists out,
    fst (read_text target_path
           (snd (main (mkWorld
                         {[ target_path :=
                              mkFile true true
                                (Some (Pattern ++ [cr; newline] ++ Pattern)) ]}
                         [] [] Windows)))) = inr out /\
    occurrences Pattern out = 0.
Proof.
  destruct (patched_target_is_clean
              (mkWorld
                 {[ target_path :=
                      mkFile true true
                        (Some (Pattern ++ [cr; newline] ++ Pattern)) ]}
                 [] [] Windows)
              (mkFile true true (Some (Pattern ++ [cr; newline] ++ Pattern)))
              (Pattern ++ [cr; newline] ++ Pattern))
    as (out & _ & Hread & Hclean).
  - apply lookup_singleton_eq.
  - reflexivity.
  - vm_compute. reflexivity.
  - exists out. split; [exact Hread | exact Hclean].
Defined.

(** X7. The exact length of the output: the content loses 67 characters
    for each occurrence of Pattern, and nothing else. *)
Theorem length_drops_per_occurrence (s : str) :
  exists out,
    Re.sub old_pattern new_line s = Some out /\
    length out + 67 * occurrences Pattern s = length s.
Proof.
  exists (str_replace Pattern Replacement s).
  split; [apply sub_fixed_string|].
  pose proof (replace_length_exact Pattern Replacement
                Pattern_nonempty Pattern_border_free s) as H.
  rewrite Pattern_length, Replacement_length in H.
  change (79 - 12) with 67 in H. apply H. lia.
Qed.

(** X8. Characters foreign to Pattern and to the replacement are kept:
    for a class of characters none of which occurs in Pattern or in
    [return text;], the output holds the same characters of that class
    as the content, in the same order. *)
Theorem foreign_characters_kept (keep : char -> bool) (s : str) :
  existsb keep Pattern = false ->
  existsb keep new_line = false ->
  exists out,
    Re.sub old_pattern new_line s = Some out /\
    List.filter keep out = List.filter keep s.
Proof.
  intros HP HR. exists (str_replace Pattern Replacement s).
  split; [apply sub_fixed_string|].
  apply (replace_filter _ _ Pattern_nonempty); apply filter_existsb; assumption.
Qed.

Lemma foreign_characters_kept_witness :
  let non_ascii := fun c : char => N.leb 128 c in
  let s := [233%N] ++ Pattern ++ [8364%N; 97%N] in
  exists out,
    Re.sub old_pattern new_line s = Some out /\
    List.filter non_ascii out = [233%N; 8364%N].
Proof.
  intros non_ascii s.
  destruct (foreign_characters_kept non_ascii s) as (out & Hout & Hkeep);
    [vm_compute; reflexivity | vm_compute; reflexivity |].
  exists out. split; [exact Hout|].
  rewrite Hkeep. vm_compute. reflexivity.
Defined.

(** X9. A content shorter than the 79 characters of Pattern, the empty
    one included, comes out unchanged. *)
Theorem short_content_unchanged (s : str) :
  length s < 79 ->
  Re.sub old_pattern new_line s = Some s.
Proof.
  intros H. rewrite sub_fixed_string. f_equal.
  apply (replace_absent _ _ Pattern_nonempty).
  apply occurrences_short. rewrite Pattern_length. exact H.
Qed.

Lemma short_content_unchanged_witness :
  Re.sub old_pattern new_line [] = Some [] /\
  Re.sub old_pattern new_line (lit "return text.replace(/&/g, '&amp;');")
  = Some (lit "return text.replace(/&/g, '&amp;');").
Proof.
  split.
  - apply (short_content_unchanged []). simpl. lia.
  - apply (short_content_unchanged (lit "return text.replace(/&/g, '&amp;');")).
    vm_compute. lia.
Defined.

(** X10. The substitution works line by line: the lines of the output
    are, in order, what [re.sub] returns on each line of the content. *)
Theorem substitution_line_by_line (s : str) :
  exists out,
    Re.sub old_pattern new_line s = Some out /\
    Forall2 (fun l l' => Re.sub old_pattern new_line l = Some l')
            (split_lines s) (split_lines out).
Proof.
  exists (str_replace Pattern Replacement s).
  split; [apply sub_fixed_string|].
  rewrite (replace_lines _ _ Pattern_nonempty Pattern_one_line Replacement_one_line).
  induction (split_lines s) as [|l ls IH]; constructor.
  - apply sub_fixed_string.
  - exact IH.
Qed.
